(** * locked_opt_queue: a mutex-protected FIFO queue with stop/join

    Shallow embedding of [ThreadSafeQueue.hpp].

    The class holds a [std::queue<T>] and a flag [m_joined]; every member
    function takes [m_mutex] first, so each function body is one critical
    section, or two when it sleeps in [m_condition.wait]: the section from
    the lock acquisition up to the wait, and the section that runs when the
    thread wakes up with the lock held again.  Each section is a function
    from the shared state to an [outcome]. *)

From stdpp Require Import base option list gmap.

Set Default Proof Using "Type".

Module TSQ.

(** ** Outcome of one critical section *)

(** What the section does to [m_condition] once it is over. *)
Inductive signal := no_signal | notify_one | notify_all.

Inductive outcome (S R : Type) :=
| Return (r : R) (s : S) (n : signal)
    (** the member function returns [r], leaving the shared state [s] *)
| Sleep (s : S)
    (** the wait predicate is false: the thread releases the lock inside
        [m_condition.wait], leaving the shared state [s] *)
| Undefined.
    (** [front()] or [pop()] of an empty [std::queue] *)
Arguments Return {S R} r s n.
Arguments Sleep {S R} s.
Arguments Undefined {S R}.

Definition omap_outcome {S A B} (f : A → B) (o : outcome S A) : outcome S B :=
  match o with
  | Return r s n => Return (f r) s n
  | Sleep s => Sleep s
  | Undefined => Undefined
  end.

Section locked_opt_queue.
Context {T : Type}.

(** ** The shared state: the private members guarded by [m_mutex]

    [m_joined] is a [std::atomic_bool], but every read and write of it is
    made with the lock held, so it is a plain field here. *)

Record queue := Queue { m_queue : list T; m_joined : bool }.

(** [std::queue] primitives on the list, front of the queue first.
    [size()] is a [size_t]; a buffer never holds that many items, so the
    count is a [nat]. *)
Definition q_empty (l : list T) : bool :=
  match l with [] => true | _ :: _ => false end.
Definition q_size (l : list T) : nat := length l.
Definition q_push (l : list T) (v : T) : list T := l ++ [v].
Definition q_front (l : list T) : option T :=
  match l with [] => None | x :: _ => Some x end.
Definition q_pop (l : list T) : option (list T) :=
  match l with [] => None | _ :: l' => Some l' end.

(** [T out = std::move(m_queue.front()); m_queue.pop();] *)
Definition take_front (q : queue) : option (T * queue) :=
  match q_front (m_queue q), q_pop (m_queue q) with
  | Some out, Some rest => Some (out, Queue rest (m_joined q))
  | _, _ => None
  end.

(** [m_condition.wait(lock, pred)] followed by [k]: with the lock held,
    test [pred]; go on with [k] when it holds, sleep otherwise. *)
Definition cond_wait {R} (pred : queue → bool) (k : queue → outcome queue R)
    (q : queue) : outcome queue R :=
  if pred q then k q else Sleep q.

(** ** wait_pop *)

Definition wait_pop_pred (q : queue) : bool :=
  negb (q_empty (m_queue q)) || m_joined q.

Definition wait_pop_tail (q : queue) : outcome queue (option T) :=
  if m_joined q then Return None q no_signal
  else match take_front q with
       | Some (out, q') => Return (Some out) q' no_signal
       | None => Undefined
       end.

(** The section run each time the thread wakes up inside the wait. *)
Definition wait_pop_woken : queue → outcome queue (option T) :=
  cond_wait wait_pop_pred wait_pop_tail.

Definition wait_pop (q : queue) : outcome queue (option T) :=
  if m_joined q then Return None q no_signal
  else wait_pop_woken q.

(** ** get *)

Definition get_pred (q : queue) : bool :=
  negb (q_empty (m_queue q)) || (m_joined q && q_empty (m_queue q)).

Definition get_tail (q : queue) : outcome queue (option T) :=
  if m_joined q && (q_size (m_queue q) =? 0) then Return None q no_signal
  else match take_front q with
       | Some (out, q') => Return (Some out) q' notify_all
       | None => Undefined
       end.

Definition get_woken : queue → outcome queue (option T) :=
  cond_wait get_pred get_tail.

Definition get (q : queue) : outcome queue (option T) :=
  if m_joined q && (q_size (m_queue q) =? 0) then Return None q no_signal
  else get_woken q.

(** ** push *)

Definition push (value : T) (q : queue) : outcome queue bool :=
  if m_joined q then Return false q no_signal
  else Return true (Queue (q_push (m_queue q) value) (m_joined q)) notify_one.

(** ** empty, complete, size *)

Definition empty (q : queue) : outcome queue bool :=
  Return (q_empty (m_queue q)) q no_signal.

Definition complete (q : queue) : outcome queue bool :=
  Return (m_joined q && q_empty (m_queue q)) q no_signal.

Definition size (q : queue) : outcome queue nat :=
  Return (q_size (m_queue q)) q no_signal.

(** ** stop *)

Definition stop (q : queue) : outcome queue unit :=
  Return () (Queue (m_queue q) true) notify_all.

(** ** join *)

Definition join_pred (q : queue) : bool :=
  m_joined q && q_empty (m_queue q).

Definition join_woken : queue → outcome queue unit :=
  cond_wait join_pred (λ q, Return () q no_signal).

Definition join (q : queue) : outcome queue unit :=
  let q := Queue (m_queue q) true in
  if q_size (m_queue q) =? 0 then Return () q no_signal
  else join_woken q.


(** ** A single caller draining the queue

    The client loop [while (auto v = q.get()) { ... }], collecting the
    values received until [get] returns an empty optional.  With no other
    thread around, a [get] that goes to sleep never returns: the loop then
    has no result, whatever the fuel. *)
Fixpoint drain (fuel : nat) (q : queue) : option (list T * queue) :=
  match fuel with
  | 0 => None
  | S fuel' =>
      match get q with
      | Return None q' _ => Some ([], q')
      | Return (Some v) q' _ =>
          match drain fuel' q' with
          | Some (vs, q'') => Some (v :: vs, q'')
          | None => None
          end
      | Sleep _ | Undefined => None
      end
  end.

(** ** The public interface as data *)

Inductive call :=
| call_wait_pop | call_get | call_push (value : T)
| call_empty | call_complete | call_stop | call_join | call_size.

Inductive result :=
| ret_opt (o : option T) | ret_bool (b : bool) | ret_void | ret_size (n : nat).

(** The section a call runs when it has just taken the lock. *)
Definition invoke (c : call) (q : queue) : outcome queue result :=
  match c with
  | call_wait_pop => omap_outcome ret_opt (wait_pop q)
  | call_get => omap_outcome ret_opt (get q)
  | call_push v => omap_outcome ret_bool (push v q)
  | call_empty => omap_outcome ret_bool (empty q)
  | call_complete => omap_outcome ret_bool (complete q)
  | call_stop => omap_outcome (λ _, ret_void) (stop q)
  | call_join => omap_outcome (λ _, ret_void) (join q)
  | call_size => omap_outcome ret_size (size q)
  end.

(** The section a call runs when its thread wakes up inside
    [m_condition.wait].  Only [wait_pop], [get] and [join] wait; the
    other calls never sleep, so the last case is never used by [step]. *)
Definition resume (c : call) (q : queue) : outcome queue result :=
  match c with
  | call_wait_pop => omap_outcome ret_opt (wait_pop_woken q)
  | call_get => omap_outcome ret_opt (get_woken q)
  | call_join => omap_outcome (λ _, ret_void) (join_woken q)
  | _ => invoke c q
  end.

(** One caller making several calls in a row; [None] when one of them
    sleeps (nobody else is there to wake it) or is undefined. *)
Fixpoint run (cs : list call) (q : queue) : option (list result * queue) :=
  match cs with
  | [] => Some ([], q)
  | c :: cs' =>
      match invoke c q with
      | Return r q' _ =>
          match run cs' q' with
          | Some (rs, q'') => Some (r :: rs, q'')
          | None => None
          end
      | Sleep _ | Undefined => None
      end
  end.

(** ** Threads

    Any number of threads share one queue.  [m_mutex] serialises the
    critical sections, so an execution is a sequence of sections, each run
    by one thread.  [sleeping] records the threads that are inside
    [m_condition.wait], with the call they are in; a thread that is not
    there is outside the class and may start any call.  A sleeping thread
    may run its wake-up section at any time: [std::condition_variable]
    allows spurious wake-ups, and the notifications are kept in the events
    only. *)

Record system := System { shared : queue; sleeping : gmap nat call }.

Inductive event :=
| ev_return (t : nat) (c : call) (r : result) (n : signal)
| ev_sleep (t : nat) (c : call).

Inductive step : system → event → system → Prop :=
| step_call_return t c q sl r q' n :
    sl !! t = None →
    invoke c q = Return r q' n →
    step (System q sl) (ev_return t c r n) (System q' sl)
| step_call_sleep t c q sl q' :
    sl !! t = None →
    invoke c q = Sleep q' →
    step (System q sl) (ev_sleep t c) (System q' (<[t := c]> sl))
| step_wake_return t c q sl r q' n :
    sl !! t = Some c →
    resume c q = Return r q' n →
    step (System q sl) (ev_return t c r n) (System q' (delete t sl))
| step_wake_sleep t c q sl q' :
    sl !! t = Some c →
    resume c q = Sleep q' →
    step (System q sl) (ev_sleep t c) (System q' sl).

Inductive exec : system → list event → system → Prop :=
| exec_nil s : exec s [] s
| exec_cons s e s' tr s'' :
    step s e s' → exec s' tr s'' → exec s (e :: tr) s''.

(** The value a successful [push] put in, if the event is one. *)
Definition pushed_by (e : event) : list T :=
  match e with
  | ev_return _ (call_push v) (ret_bool true) _ => [v]
  | _ => []
  end.

(** The consumer thread and the value it received, if the event is the
    return of a non-empty optional. *)
Definition delivered_by (e : event) : list (nat * T) :=
  match e with
  | ev_return t _ (ret_opt (Some v)) _ => [(t, v)]
  | _ => []
  end.

(** Successful pushes of a trace, in the order the lock serialised them. *)
Definition pushes (tr : list event) : list T := tr ≫= pushed_by.

(** Deliveries of a trace, in order, each with its consumer. *)
Definition deliveries (tr : list event) : list (nat * T) := tr ≫= delivered_by.

(** ** Predicates used in the statements *)

(** What a section of a pop, [wait_pop] or [get], may do to the state [q]
    it runs on: return empty on a stopped queue it leaves alone, return
    the head item and keep the tail and the flag, or sleep on the running,
    empty queue. *)
Definition pop_effect (q : queue) (o : outcome queue (option T)) : Prop :=
  match o with
  | Return None q' _ => q' = q ∧ m_joined q = true
  | Return (Some v) q' _ => q = Queue (v :: m_queue q') (m_joined q')
  | Sleep q' => q' = q ∧ q = Queue [] false
  | Undefined => False
  end.

(** The member functions that contain a [m_condition.wait]. *)
Definition may_wait (c : call) : bool :=
  match c with
  | call_wait_pop | call_get | call_join => true
  | _ => false
  end.

(** Every sleeping thread is inside a function that waits, and a thread
    sleeps inside [join()] only on a stopped queue. *)
Definition sleepers_ok (s : system) : Prop :=
  ∀ t c, sleeping s !! t = Some c →
    may_wait c = true ∧ (c = call_join → m_joined (shared s) = true).

(** What an event can be once the queue is stopped: [wait_pop] comes back
    empty, [push] is refused, a value is handed out by [get] only, and
    nothing but [join()] sleeps. *)
Definition after_stop_ok (e : event) : Prop :=
  match e with
  | ev_return _ c r _ =>
      (c = call_wait_pop → r = ret_opt None) ∧
      (∀ v, c = call_push v → r = ret_bool false) ∧
      (∀ v, r = ret_opt (Some v) → c = call_get)
  | ev_sleep _ c => c = call_join
  end.

(** The event of thread [t] receiving [v] from [get]. *)
Definition ev_got (t : nat) (v : T) : event :=
  ev_return t call_get (ret_opt (Some v)) notify_all.

End locked_opt_queue.
Arguments queue T : clear implicits.
Arguments call T : clear implicits.
Arguments result T : clear implicits.
Arguments system T : clear implicits.
Arguments event T : clear implicits.

(** * Properties *)

(** ** Facts on the primitives *)

Lemma q_empty_true {T} (l : list T) : q_empty l = true ↔ l = [].
Proof. by destruct l. Qed.

Lemma q_size_zero {T} (l : list T) : (q_size l =? 0) = q_empty l.
Proof. by destruct l. Qed.

Lemma take_front_cons {T} (x : T) l b :
  take_front (Queue (x :: l) b) = Some (x, Queue l b).
Proof. done. Qed.

Lemma queue_eta {T} (q : queue T) : Queue (m_queue q) (m_joined q) = q.
Proof. by destruct q. Qed.

(** ** The scenarios of the specification, run by one caller *)

(** Push 1, 2, 3; the abandon-style pop receives them in order; after
    [stop()] the next pop is empty. *)
Example scenario_push_pop_stop :
  run [call_push 1; call_push 2; call_push 3;
       call_wait_pop; call_wait_pop; call_wait_pop;
       call_stop; call_wait_pop] (Queue [] false)
  = Some ([ret_bool true; ret_bool true; ret_bool true;
           ret_opt (Some 1); ret_opt (Some 2); ret_opt (Some 3);
           ret_void; ret_opt None], Queue [] true).
Proof. reflexivity. Qed.

(** Push two items and stop; [get] drains them and then comes back empty;
    [complete()] is false until the buffer is empty. *)
Example scenario_stop_then_drain :
  run [call_push 10; call_push 20; call_stop; call_complete;
       call_get; call_complete; call_get; call_complete; call_get]
      (Queue [] false)
  = Some ([ret_bool true; ret_bool true; ret_void; ret_bool false;
           ret_opt (Some 10); ret_bool false;
           ret_opt (Some 20); ret_bool true; ret_opt None], Queue [] true).
Proof. reflexivity. Qed.

(** After [stop()] the abandon-style pop leaves the items where they are. *)
Example scenario_abandon :
  run [call_push 1; call_stop; call_wait_pop; call_size] (Queue [] false)
  = Some ([ret_bool true; ret_void; ret_opt None; ret_size 1], Queue [1] true).
Proof. reflexivity. Qed.

(** With nobody to push, a pop on a running, empty queue never returns. *)
Example scenario_blocked :
  wait_pop (Queue (@nil nat) false) = Sleep (Queue [] false) ∧
  get (Queue (@nil nat) false) = Sleep (Queue [] false) ∧
  run [call_get; call_stop] (Queue (@nil nat) false) = None.
Proof. done. Qed.

(** Case analysis on a state: stopped, running and empty, or running
    with a head item. *)
Ltac queue_cases q :=
  let l := fresh "l" in
  let b := fresh "b" in
  destruct q as [l b]; destruct b; destruct l; simpl in *.

(** ** push *)

(** C4: on a stopped queue [push] returns false and leaves the buffer and
    the flag as they were; on a running queue it appends the value at the
    tail of the buffer and returns true. *)
Theorem push_stopped_or_appends {T} (v : T) (l : list T) :
  push v (Queue l true) = Return false (Queue l true) no_signal ∧
  push v (Queue l false) = Return true (Queue (l ++ [v]) false) notify_one.
Proof. done. Qed.

(** ** wait_pop *)

(** C2: on a stopped queue [wait_pop] returns an empty optional and keeps
    the buffer, items or not, both on entry and when woken from the wait;
    on a running queue with items it removes the head and returns it. *)
Theorem wait_pop_abandons_or_takes {T} (x : T) (l : list T) :
  (wait_pop (Queue l true) = Return None (Queue l true) no_signal ∧
   wait_pop_woken (Queue l true) = Return None (Queue l true) no_signal) ∧
  (wait_pop (Queue (x :: l) false) = Return (Some x) (Queue l false) no_signal ∧
   wait_pop_woken (Queue (x :: l) false)
     = Return (Some x) (Queue l false) no_signal).
Proof.
  repeat split; try done.
  unfold wait_pop_woken, cond_wait, wait_pop_pred; simpl.
  by rewrite orb_true_r.
Qed.

(** ** get *)

Lemma get_woken_eq {T} (q : queue T) : get_woken q = get q.
Proof. by queue_cases q. Qed.

Lemma get_cons {T} (x : T) l b :
  get (Queue (x :: l) b) = Return (Some x) (Queue l b) notify_all.
Proof. by destruct b. Qed.

Lemma get_nil_stopped {T} :
  get (Queue (@nil T) true) = Return None (Queue [] true) no_signal.
Proof. done. Qed.

Lemma get_nil_running {T} : get (Queue (@nil T) false) = Sleep (Queue [] false).
Proof. done. Qed.

(** C3: [get] returns an empty optional exactly when the queue is stopped
    and the buffer is empty where it decides, on entry or when woken; with
    a head item it removes and returns it; on a running, empty queue it
    decides nothing and sleeps. *)
Theorem get_empty_iff_complete {T} (q : queue T) :
  ((∃ q' n, get q = Return None q' n) ↔ m_joined q = true ∧ m_queue q = []) ∧
  ((∃ q' n, get_woken q = Return None q' n)
     ↔ m_joined q = true ∧ m_queue q = []) ∧
  (∀ x l, m_queue q = x :: l →
     get q = Return (Some x) (Queue l (m_joined q)) notify_all ∧
     get_woken q = Return (Some x) (Queue l (m_joined q)) notify_all) ∧
  (m_joined q = false → m_queue q = [] →
     get q = Sleep q ∧ get_woken q = Sleep q).
Proof.
  rewrite get_woken_eq.
  assert ((∃ q' n, get q = Return None q' n)
            ↔ m_joined q = true ∧ m_queue q = []) as Hiff.
  { queue_cases q; split; try (intros (? & ? & ?); done);
      try (intros [? ?]; done); eauto. }
  split_and!; try done.
  - intros x l Hq. destruct q as [l' b]; simpl in *; subst.
    by rewrite get_cons.
  - intros Hj Hq. destruct q as [l' b]; simpl in *; subst. done.
Qed.

Lemma get_empty_iff_complete_witness :
  get (Queue [5; 6] true) = Return (Some 5) (Queue [6] true) notify_all ∧
  get (Queue (@nil nat) false) = Sleep (Queue [] false) ∧
  ∃ q' n, get (Queue (@nil nat) true) = Return None q' n.
Proof.
  destruct (get_empty_iff_complete (Queue [5; 6] true))
    as (_ & _ & Hhead & _).
  destruct (get_empty_iff_complete (Queue (@nil nat) false))
    as (_ & _ & _ & Hsleep).
  destruct (get_empty_iff_complete (Queue (@nil nat) true))
    as (Hiff & _).
  split_and!.
  - exact (proj1 (Hhead 5 [6] eq_refl)).
  - exact (proj1 (Hsleep eq_refl eq_refl)).
  - apply Hiff. by split.
Defined.

(** ** empty, size, complete *)

(** C9: [empty], [size] and [complete] return with the state they were
    called on: the buffer and the flag are the same after the call. *)
Theorem observers_keep_state {T} (q : queue T) :
  empty q = Return (q_empty (m_queue q)) q no_signal ∧
  size q = Return (length (m_queue q)) q no_signal ∧
  complete q = Return (m_joined q && q_empty (m_queue q)) q no_signal.
Proof. done. Qed.

(** ** Draining a stopped queue *)

Lemma drain_stopped {T} (l : list T) (k : nat) :
  drain (S (length l) + k) (Queue l true) = Some (l, Queue [] true).
Proof.
  induction l as [|x l IH]; [done|].
  change (S (length (x :: l)) + k) with (S (S (length l) + k)).
  cbn [drain]. rewrite get_cons. by rewrite IH.
Qed.

(** C1: after [stop()], a caller that repeats [get] until it comes back
    empty receives exactly the buffer as it was at [stop()], first in first
    out, and then the empty optional; it ends on the stopped, empty queue. *)
Theorem drain_after_stop {T} (q : queue T) (k : nat) :
  ∃ q1,
    stop q = Return () q1 notify_all ∧
    drain (S (length (m_queue q)) + k) q1
      = Some (m_queue q, Queue [] true) ∧
    get (Queue (@nil T) true) = Return None (Queue [] true) no_signal.
Proof.
  eexists; split_and!; [done| |done].
  apply drain_stopped.
Qed.

(** ** What one critical section can do to the shared state *)

Lemma invoke_complete {T} (c : call T) :
  ∃ r n, invoke c (Queue [] true) = Return r (Queue [] true) n.
Proof. destruct c; simpl; eauto. Qed.

Lemma resume_complete {T} (c : call T) :
  ∃ r n, resume c (Queue [] true) = Return r (Queue [] true) n.
Proof. destruct c; simpl; eauto. Qed.

Lemma complete_true {T} (q : queue T) :
  complete q = Return true q no_signal ↔ q = Queue [] true.
Proof.
  unfold complete. split.
  - intros [= Hc]. by queue_cases q.
  - by intros ->.
Qed.

Lemma step_complete {T} (sl : gmap nat (call T)) e s' :
  step (System (Queue [] true) sl) e s' →
  shared s' = Queue [] true ∧
  ∀ t r n, e = ev_return t call_complete r n → r = ret_bool true.
Proof.
  inversion 1 as [t c q sl' r q' n Hsl Hc|t c q sl' q' Hsl Hc
                 |t c q sl' r q' n Hsl Hc|t c q sl' q' Hsl Hc]; subst; simpl.
  - destruct (invoke_complete c) as (r' & n' & Hr).
    rewrite Hr in Hc. simplify_eq. split; [done|].
    intros ??? ?. by simplify_eq/=.
  - destruct (invoke_complete c) as (r' & n' & Hr). congruence.
  - destruct (resume_complete c) as (r' & n' & Hr).
    rewrite Hr in Hc. simplify_eq. split; [done|].
    intros ??? ?. by simplify_eq/=.
  - destruct (resume_complete c) as (r' & n' & Hr). congruence.
Qed.

Lemma exec_complete {T} (s s' : system T) tr :
  exec s tr s' →
  shared s = Queue [] true →
  shared s' = Queue [] true ∧
  ∀ t r n, ev_return t call_complete r n ∈ tr → r = ret_bool true.
Proof.
  induction 1 as [s|s e s' tr s'' Hstep _ IH]; intros Hs.
  - split; [done|]. intros ??? Hin. by apply elem_of_nil in Hin.
  - destruct s as [q sl]; simpl in Hs; subst q.
    apply step_complete in Hstep as [Hs' He].
    destruct (IH Hs') as [Hs'' Htr]. split; [done|].
    intros t r n [Heq|Hin]%elem_of_cons; [by eapply He|by eapply Htr].
Qed.

Lemma run_complete {T} (cs : list (call T)) :
  ∃ rs, run cs (Queue [] true) = Some (rs, Queue [] true).
Proof.
  induction cs as [|c cs [rs IH]]; simpl; [eauto|].
  destruct (invoke_complete c) as (r & n & ->). rewrite IH. eauto.
Qed.

(** C5: once [complete()] returns true, the queue is stopped and empty and
    stays so: one caller making any calls in a row gets all of them back
    with the state as it was, and along any interleaving of calls by any
    threads the state is the same and each later [complete()] returns
    true. *)
Theorem complete_is_absorbing {T} (s : system T) :
  complete (shared s) = Return true (shared s) no_signal →
  (∀ cs, ∃ rs, run cs (shared s) = Some (rs, shared s)) ∧
  (∀ tr s', exec s tr s' →
     shared s' = shared s ∧
     complete (shared s') = Return true (shared s') no_signal ∧
     ∀ t r n, ev_return t call_complete r n ∈ tr → r = ret_bool true).
Proof.
  intros Hc%complete_true. rewrite Hc. split.
  - apply run_complete.
  - intros tr s' Hex. destruct (exec_complete _ _ _ Hex Hc) as [Hs' Htr].
    rewrite Hs'. split_and!; [done|by apply complete_true|done].
Qed.

Lemma complete_is_absorbing_witness :
  let s := System (Queue (@nil nat) true) ∅ in
  complete (shared s) = Return true (shared s) no_signal ∧
  (∃ rs, run [call_push 7; call_get; call_join; call_complete] (shared s)
           = Some (rs, shared s)) ∧
  (∀ tr s', exec s tr s' →
     shared s' = shared s ∧
     complete (shared s') = Return true (shared s') no_signal ∧
     ∀ t r n, ev_return t call_complete r n ∈ tr → r = ret_bool true).
Proof.
  pose proof (complete_is_absorbing (System (Queue (@nil nat) true) ∅)
                eq_refl) as [Hrun Hexec].
  split_and!; [reflexivity|apply Hrun|apply Hexec].
Defined.

(** ** stop *)

Lemma stopped_invoke {T} (c : call T) (q : queue T) :
  m_joined q = true →
  match invoke c q with
  | Return r q' _ =>
      m_joined q' = true ∧ ∀ v, c = call_push v → r = ret_bool false
  | Sleep q' => m_joined q' = true
  | Undefined => True
  end.
Proof.
  intros Hj. destruct q as [l b]; simpl in Hj; subst b.
  destruct c, l; simpl; try done; split; try done; by intros ? [= <-].
Qed.

Lemma stopped_resume {T} (c : call T) (q : queue T) :
  m_joined q = true →
  match resume c q with
  | Return r q' _ =>
      m_joined q' = true ∧ ∀ v, c = call_push v → r = ret_bool false
  | Sleep q' => m_joined q' = true
  | Undefined => True
  end.
Proof.
  intros Hj. destruct q as [l b]; simpl in Hj; subst b.
  destruct c, l; simpl; try done; split; try done; by intros ? [= <-].
Qed.

Lemma step_stopped {T} (s s' : system T) e :
  step s e s' →
  m_joined (shared s) = true →
  m_joined (shared s') = true ∧
  ∀ t v r n, e = ev_return t (call_push v) r n → r = ret_bool false.
Proof.
  inversion 1 as [t c q sl r q' n Hsl Hc|t c q sl q' Hsl Hc
                 |t c q sl r q' n Hsl Hc|t c q sl q' Hsl Hc];
    subst; simpl; intros Hj.
  - pose proof (stopped_invoke c q Hj) as Hi. rewrite Hc in Hi.
    destruct Hi as [Hj' Hp]. split; [done|].
    intros ???? ?; simplify_eq. by eapply Hp.
  - pose proof (stopped_invoke c q Hj) as Hi. rewrite Hc in Hi. done.
  - pose proof (stopped_resume c q Hj) as Hi. rewrite Hc in Hi.
    destruct Hi as [Hj' Hp]. split; [done|].
    intros ???? ?; simplify_eq. by eapply Hp.
  - pose proof (stopped_resume c q Hj) as Hi. rewrite Hc in Hi. done.
Qed.

Lemma exec_stopped {T} (s s' : system T) tr :
  exec s tr s' →
  m_joined (shared s) = true →
  m_joined (shared s') = true ∧
  ∀ t v r n, ev_return t (call_push v) r n ∈ tr → r = ret_bool false.
Proof.
  induction 1 as [s|s e s' tr s'' Hstep _ IH]; intros Hj.
  - split; [done|]. intros ???? Hin. by apply elem_of_nil in Hin.
  - apply step_stopped in Hstep as [Hj' He]; [|done].
    destruct (IH Hj') as [Hj'' Htr]. split; [done|].
    intros t v r n [Heq|Hin]%elem_of_cons; [by eapply He|by eapply Htr].
Qed.

Lemma run_stops {T} (l : list T) (n : nat) :
  run (replicate n call_stop) (Queue l true)
    = Some (replicate n ret_void, Queue l true).
Proof. induction n as [|n IH]; simpl; [done|]. by rewrite IH. Qed.

(** C6: a second [stop()] changes nothing, and so does any number of
    them: the state is the one the first left.  After a [stop()], along
    any interleaving of calls by any threads, the queue stays stopped and
    every [push] that returns has returned false, leaving the state as it
    found it. *)
Theorem stop_idempotent_then_push_fails {T} (q : queue T) :
  ∃ q1,
    stop q = Return () q1 notify_all ∧
    stop q1 = Return () q1 notify_all ∧
    (∀ n, run (replicate (S n) call_stop) q
            = Some (replicate (S n) ret_void, q1)) ∧
    (∀ v, push v q1 = Return false q1 no_signal) ∧
    (∀ sl tr s', exec (System q1 sl) tr s' →
       m_joined (shared s') = true ∧
       (∀ v, push v (shared s') = Return false (shared s') no_signal) ∧
       ∀ t v r n, ev_return t (call_push v) r n ∈ tr → r = ret_bool false).
Proof.
  exists (Queue (m_queue q) true). split_and!; try done.
  - intros n. cbn [replicate run invoke stop omap_outcome].
    by rewrite run_stops.
  - intros sl tr s' Hex.
    destruct (exec_stopped _ _ _ Hex eq_refl) as [Hj Htr].
    split_and!; [done| |done].
    intros v. unfold push. by rewrite Hj.
Qed.

Lemma stop_idempotent_then_push_fails_witness :
  ∃ q1 : queue nat,
    stop (Queue [1; 2] false) = Return () q1 notify_all ∧
    stop q1 = Return () q1 notify_all ∧
    exec (System q1 ∅)
      [ev_return 0 (call_push 5) (ret_bool false) no_signal] (System q1 ∅) ∧
    ∀ t v r n,
      ev_return t (call_push v) r n
        ∈ [ev_return 0 (call_push 5) (ret_bool false) no_signal] →
      r = ret_bool false.
Proof.
  destruct (stop_idempotent_then_push_fails (Queue [1; 2] false))
    as (q1 & Hstop & Hagain & _ & _ & Hexec).
  assert (exec (System q1 ∅)
            [ev_return 0 (call_push 5) (ret_bool false) no_signal]
            (System q1 ∅)) as Hex.
  { injection Hstop as <-. simpl.
    eapply exec_cons; [|apply exec_nil].
    by apply step_call_return. }
  exists q1. split_and!; [exact Hstop|exact Hagain|exact Hex|].
  exact (proj2 (proj2 (Hexec _ _ _ Hex))).
Defined.

(** ** join *)

Lemma join_woken_return {T} (q : queue T) r q' n :
  join_woken q = Return r q' n → q' = q ∧ q = Queue [] true.
Proof. queue_cases q; cbv; intros ?; by simplify_eq. Qed.

Lemma join_woken_sleep {T} (q q' : queue T) :
  join_woken q = Sleep q' → q' = q ∧ q ≠ Queue [] true.
Proof. queue_cases q; cbv; intros ?; by simplify_eq. Qed.

Lemma join_return {T} (q : queue T) r q' n :
  join q = Return r q' n → m_queue q = [] ∧ q' = Queue [] true.
Proof. queue_cases q; cbv; intros ?; by simplify_eq. Qed.

Lemma join_sleep {T} (q q' : queue T) :
  join q = Sleep q' → q' = Queue (m_queue q) true.
Proof. queue_cases q; cbv; intros ?; by simplify_eq. Qed.

(** C7: [join()] sets the flag; called on an empty buffer it returns at
    once, otherwise it goes to sleep, and a woken [join()] returns exactly
    on the stopped, empty queue and sleeps again on any other.  No section
    of [join()] touches the buffer: in any execution the step of a thread
    inside [join()] leaves the items as they were, and the step by which
    [join()] returns leaves the queue complete. *)
Theorem join_stops_and_waits_for_complete {T} (x : T) (l : list T) (b : bool) :
  join (Queue (@nil T) b) = Return () (Queue [] true) no_signal ∧
  join (Queue (x :: l) b) = Sleep (Queue (x :: l) true) ∧
  join_woken (Queue (@nil T) true) = Return () (Queue [] true) no_signal ∧
  (∀ (q : queue T) r q' n,
     join_woken q = Return r q' n → q' = q ∧ q = Queue [] true) ∧
  (∀ q q' : queue T,
     join_woken q = Sleep q' → q' = q ∧ q ≠ Queue [] true) ∧
  (∀ (s s' : system T) e, step s e s' →
     (∀ t, e = ev_sleep t call_join →
        m_queue (shared s') = m_queue (shared s)) ∧
     (∀ t r n, e = ev_return t call_join r n →
        m_queue (shared s') = m_queue (shared s) ∧
        complete (shared s') = Return true (shared s') no_signal)).
Proof.
  split_and!; try done.
  - apply join_woken_return.
  - apply join_woken_sleep.
  - inversion 1 as [t c q sl r q' n Hsl Hc|t c q sl q' Hsl Hc
                   |t c q sl r q' n Hsl Hc|t c q sl q' Hsl Hc];
      subst; simpl; (split; [intros t'|intros t' r' n']);
      intros ?; simplify_eq; simpl in Hc.
    + destruct (join q) as [r1 q1 n1| |] eqn:Hj; simplify_eq/=.
      apply join_return in Hj as [-> ->]. done.
    + destruct (join q) as [r1 q1 n1|q1|] eqn:Hj; simplify_eq/=.
      by apply join_sleep in Hj as ->.
    + destruct (join_woken q) as [r1 q1 n1| |] eqn:Hj; simplify_eq/=.
      apply join_woken_return in Hj as [-> ->]. done.
    + destruct (join_woken q) as [r1 q1 n1|q1|] eqn:Hj; simplify_eq/=.
      by apply join_woken_sleep in Hj as [-> _].
Qed.

Lemma join_stops_and_waits_for_complete_witness :
  let s := System (Queue [4] true) {[ 0 := call_join ]} in
  let s' := System (Queue [4] true) {[ 0 := call_join ]} in
  step s (ev_sleep 0 call_join) s' ∧
  m_queue (shared s') = m_queue (shared s).
Proof.
  assert (step (System (Queue [4] true) {[ 0 := call_join ]})
            (ev_sleep 0 call_join)
            (System (Queue [4] true) {[ 0 := call_join ]})) as Hstep.
  { by apply step_wake_sleep. }
  split; [exact Hstep|].
  destruct (join_stops_and_waits_for_complete 4 [] true)
    as (_ & _ & _ & _ & _ & Hsteps).
  exact (proj1 (Hsteps _ _ _ Hstep) 0 eq_refl).
Defined.

(** ** No loss, no duplication, first in first out *)

Lemma invoke_conserves {T} (c : call T) (q : queue T) t :
  match invoke c q with
  | Return r q' n =>
      m_queue q ++ pushed_by (ev_return t c r n)
        = (delivered_by (ev_return t c r n)).*2 ++ m_queue q'
  | Sleep q' => m_queue q' = m_queue q
  | Undefined => True
  end.
Proof. queue_cases q; destruct c; simpl; by rewrite ?app_nil_r. Qed.

Lemma resume_conserves {T} (c : call T) (q : queue T) t :
  match resume c q with
  | Return r q' n =>
      m_queue q ++ pushed_by (ev_return t c r n)
        = (delivered_by (ev_return t c r n)).*2 ++ m_queue q'
  | Sleep q' => m_queue q' = m_queue q
  | Undefined => True
  end.
Proof. queue_cases q; destruct c; simpl; by rewrite ?app_nil_r. Qed.

Lemma step_conserves {T} (s s' : system T) e :
  step s e s' →
  m_queue (shared s) ++ pushed_by e
    = (delivered_by e).*2 ++ m_queue (shared s').
Proof.
  inversion 1 as [t c q sl r q' n Hsl Hc|t c q sl q' Hsl Hc
                 |t c q sl r q' n Hsl Hc|t c q sl q' Hsl Hc]; subst.
  - pose proof (invoke_conserves c q t) as Hi. by rewrite Hc in Hi.
  - pose proof (invoke_conserves c q t) as Hi. rewrite Hc in Hi.
    simpl. by rewrite app_nil_r.
  - pose proof (resume_conserves c q t) as Hi. by rewrite Hc in Hi.
  - pose proof (resume_conserves c q t) as Hi. rewrite Hc in Hi.
    simpl. by rewrite app_nil_r.
Qed.

Lemma exec_conserves {T} (s s' : system T) tr :
  exec s tr s' →
  m_queue (shared s) ++ pushes tr
    = (deliveries tr).*2 ++ m_queue (shared s').
Proof.
  induction 1 as [s|s e s' tr s'' Hstep _ IH].
  - simpl. by rewrite app_nil_r.
  - unfold pushes, deliveries in *. cbn [mbind list_bind].
    rewrite fmap_app, (assoc_L (++)), (step_conserves _ _ _ Hstep).
    by rewrite <-!(assoc_L (++)), IH.
Qed.

(** C8: in any execution of any threads on a queue that starts empty, the
    values put in by the successful pushes, in the order the lock
    serialised them, are the values handed to the consumers, in the order
    they were handed out, followed by the buffer: the i-th pushed value is
    the i-th delivery, received by the one thread of that delivery, or
    still sits at its place in the buffer. *)
Theorem no_loss_no_duplication_fifo {T} (s s' : system T) tr :
  exec s tr s' →
  m_queue (shared s) = [] →
  pushes tr = (deliveries tr).*2 ++ m_queue (shared s') ∧
  ∀ i v, pushes tr !! i = Some v →
    (∃ t, deliveries tr !! i = Some (t, v)) ∨
    (length (deliveries tr) ≤ i ∧
     m_queue (shared s') !! (i - length (deliveries tr)) = Some v).
Proof.
  intros Hex Hnil. pose proof (exec_conserves _ _ _ Hex) as Heq.
  rewrite Hnil in Heq. simpl in Heq. split; [done|].
  intros i v. rewrite Heq.
  destruct (decide (i < length (deliveries tr))) as [Hlt|Hge].
  - rewrite lookup_app_l by by rewrite length_fmap.
    rewrite list_lookup_fmap.
    destruct (deliveries tr !! i) as [[t v']|] eqn:Hd; [|done].
    intros [= <-]. left. by exists t.
  - rewrite lookup_app_r by (rewrite length_fmap; lia).
    rewrite length_fmap. intros Hb. right. split; [lia|done].
Qed.

Lemma no_loss_no_duplication_fifo_witness :
  let s0 : system nat := System (Queue [] false) ∅ in
  let tr := [ev_sleep 1 call_get;
             ev_return 0 (call_push 7) (ret_bool true) notify_one;
             ev_return 0 (call_push 8) (ret_bool true) notify_one;
             ev_return 1 call_get (ret_opt (Some 7)) notify_all] in
  let s1 : system nat := System (Queue [8] false) ∅ in
  exec s0 tr s1 ∧
  pushes tr = [7; 8] ∧
  deliveries tr = [(1, 7)] ∧
  pushes tr = (deliveries tr).*2 ++ m_queue (shared s1).
Proof.
  assert (exec (System (Queue (@nil nat) false) ∅)
            [ev_sleep 1 call_get;
             ev_return 0 (call_push 7) (ret_bool true) notify_one;
             ev_return 0 (call_push 8) (ret_bool true) notify_one;
             ev_return 1 call_get (ret_opt (Some 7)) notify_all]
            (System (Queue [8] false) ∅)) as Hex.
  { eapply exec_cons; [by apply step_call_sleep|].
    eapply exec_cons; [by apply step_call_return|].
    eapply exec_cons; [by apply step_call_return|].
    eapply exec_cons; [|apply exec_nil].
    replace (∅ : gmap nat (call nat))
      with (delete 1 (<[1 := call_get]> (∅ : gmap nat (call nat)))) at 2
      by (by rewrite delete_insert_eq, delete_empty).
    by apply step_wake_return. }
  split_and!; [exact Hex|reflexivity|reflexivity|].
  exact (proj1 (no_loss_no_duplication_fifo _ _ _ Hex eq_refl)).
Defined.

(** ** Calls on a stopped queue *)

(** The wait predicates guard [front()]: no section, on any state,
    reaches the front of an empty buffer. *)
Lemma never_undefined {T} (c : call T) (q : queue T) :
  invoke c q ≠ Undefined ∧ resume c q ≠ Undefined.
Proof. queue_cases q; destruct c; done. Qed.

Lemma stopped_returns {T} (c : call T) (l : list T) :
  c ≠ call_join ∨ l = [] →
  ∃ r q' n, invoke c (Queue l true) = Return r q' n.
Proof.
  intros Hc. destruct c, l; simpl; eauto.
  by destruct Hc.
Qed.

(** C10: on a stopped queue every call is defined.  [push] returns false
    and [wait_pop] the empty optional, both keeping the state; [get]
    hands out the head item while there is one, so that repeating it
    yields the remaining items and then the empty optional; [stop()]
    returns with the state it found, and so does [join()] once the buffer
    is drained.  Every call other than a [join()] on a non-empty buffer
    returns without sleeping, and no section, entered or woken, is
    undefined. *)
Theorem stopped_queue_calls_are_defined {T} (v x : T) (l : list T) (k : nat) :
  let q := Queue l true in
  push v q = Return false q no_signal ∧
  wait_pop q = Return None q no_signal ∧
  wait_pop_woken q = Return None q no_signal ∧
  get (Queue (x :: l) true) = Return (Some x) q notify_all ∧
  get (Queue (@nil T) true) = Return None (Queue [] true) no_signal ∧
  drain (S (length l) + k) q = Some (l, Queue [] true) ∧
  stop q = Return () q notify_all ∧
  join (Queue (@nil T) true) = Return () (Queue [] true) no_signal ∧
  join_woken (Queue (@nil T) true) = Return () (Queue [] true) no_signal ∧
  (∀ c, c ≠ call_join ∨ l = [] → ∃ r q' n, invoke c q = Return r q' n) ∧
  (∀ c, invoke c q ≠ Undefined ∧ resume c q ≠ Undefined).
Proof.
  intros q. split_and!; try done.
  - unfold wait_pop_woken, cond_wait, wait_pop_pred; simpl.
    by rewrite orb_true_r.
  - apply drain_stopped.
  - intros c. apply stopped_returns.
  - intros c. apply never_undefined.
Qed.

Lemma stopped_queue_calls_are_defined_witness :
  drain 5 (Queue [1; 2; 3] true) = Some ([1; 2; 3], Queue [] true) ∧
  ∃ r q' n, invoke call_get (Queue [1; 2; 3] true) = Return r q' n.
Proof.
  destruct (stopped_queue_calls_are_defined 0 0 [1; 2; 3] 1)
    as (_ & _ & _ & _ & _ & Hdrain & _ & _ & _ & Hret & _).
  split; [exact Hdrain|].
  apply Hret. by left.
Defined.

(** * Further properties of the member functions *)

(** ** What a pop may do *)

(** X1: whatever section of [wait_pop] or [get] runs, on whatever state,
    it takes nothing but the head: an empty result means the queue was
    stopped and is left as found, a value is the head of the buffer and
    the tail and the flag are kept, and a pop sleeps only on the running,
    empty queue, which it leaves as found. *)
Theorem pops_take_the_head_or_nothing {T} (q : queue T) :
  pop_effect q (wait_pop q) ∧ pop_effect q (wait_pop_woken q) ∧
  pop_effect q (get q) ∧ pop_effect q (get_woken q).
Proof. queue_cases q; cbv; done. Qed.

(** ** Which calls sleep, and when *)

(** X2: a call goes to sleep on entry exactly when it is a pop on the
    running, empty queue, or a [join()] on a non-empty buffer, which it
    has stopped; a woken call sleeps again exactly when it is a pop on
    the running, empty queue or a [join()] on a queue that is not both
    stopped and empty.  [push], [empty], [complete], [stop] and [size]
    never sleep. *)
Theorem sleeps_exactly_when {T} (c : call T) (q q' : queue T) :
  (invoke c q = Sleep q' ↔
     ((c = call_wait_pop ∨ c = call_get) ∧ q = Queue [] false ∧ q' = q) ∨
     (c = call_join ∧ m_queue q ≠ [] ∧ q' = Queue (m_queue q) true)) ∧
  (resume c q = Sleep q' ↔
     ((c = call_wait_pop ∨ c = call_get) ∧ q = Queue [] false ∧ q' = q) ∨
     (c = call_join ∧ q ≠ Queue [] true ∧ q' = q)).
Proof.
  split; (split; [|intros [[[-> | ->] [-> ->]]|(-> & Hq & ->)]; [done..|]]).
  - queue_cases q; destruct c; cbv; intros ?; simplify_eq; naive_solver.
  - queue_cases q; done.
  - queue_cases q; destruct c; cbv; intros ?; simplify_eq; naive_solver.
  - queue_cases q; done.
Qed.

(** ** The observers agree *)

(** X3: [complete()] returns true exactly when [empty()] returns true and
    a [push] would be refused, and [empty()] returns true exactly when
    [size()] returns 0. *)
Theorem complete_iff_empty_and_closed {T} (v : T) (q : queue T) :
  (complete q = Return true q no_signal ↔
     empty q = Return true q no_signal ∧
     push v q = Return false q no_signal) ∧
  (empty q = Return true q no_signal ↔ size q = Return 0 q no_signal).
Proof. queue_cases q; cbv; intuition congruence. Qed.

(** ** join against stop *)

(** X4: when [join()] returns on entry it has made the state change of
    [stop()], and when it sleeps it has made it too; unlike [stop()], it
    notifies nobody. *)
Theorem join_changes_state_as_stop {T} (q : queue T) :
  ∃ q1,
    stop q = Return () q1 notify_all ∧
    (join q = Return () q1 no_signal ∨ join q = Sleep q1) ∧
    ∀ r q' n, join_woken q = Return r q' n → n = no_signal.
Proof.
  exists (Queue (m_queue q) true). split_and!; [done| |].
  - queue_cases q; cbv; eauto.
  - queue_cases q; cbv; intros; by simplify_eq.
Qed.

Lemma join_changes_state_as_stop_witness :
  ∃ q1 : queue nat,
    stop (Queue [] false) = Return () q1 notify_all ∧
    (join (Queue [] false) = Return () q1 no_signal
     ∨ join (Queue [] false) = Sleep q1).
Proof.
  destruct (join_changes_state_as_stop (Queue (@nil nat) false))
    as (q1 & Hstop & Hjoin & _).
  by exists q1.
Defined.

Lemma sleeps_exactly_when_witness :
  invoke call_join (Queue [3] false) = Sleep (Queue [3] true) ∧
  resume call_get (Queue (@nil nat) false) = Sleep (Queue [] false).
Proof.
  split.
  - apply (sleeps_exactly_when call_join (Queue [3] false) (Queue [3] true)).
    right. by split_and!.
  - apply (sleeps_exactly_when call_get (Queue (@nil nat) false)
             (Queue [] false)).
    left. split_and!; [by right|done..].
Defined.

Lemma complete_iff_empty_and_closed_witness :
  complete (Queue (@nil nat) true) = Return true (Queue [] true) no_signal.
Proof.
  apply (complete_iff_empty_and_closed 0 (Queue (@nil nat) true)).
  by split.
Defined.

(** ** Pushing and popping in a row *)

Lemma run_app {T} (cs1 cs2 : list (call T)) q rs1 q1 rs2 q2 :
  run cs1 q = Some (rs1, q1) →
  run cs2 q1 = Some (rs2, q2) →
  run (cs1 ++ cs2) q = Some (rs1 ++ rs2, q2).
Proof.
  revert q rs1. induction cs1 as [|c cs1 IH]; intros q rs1 H1 H2; simpl in *.
  - by simplify_eq.
  - destruct (invoke c q) as [r q' n| |]; [|done..].
    destruct (run cs1 q') as [[rs q'']|] eqn:Hrun; [|done].
    simplify_eq. by rewrite (IH _ _ Hrun H2).
Qed.

Lemma run_pushes {T} (vs l : list T) :
  run (call_push <$> vs) (Queue l false)
    = Some (replicate (length vs) (ret_bool true), Queue (l ++ vs) false).
Proof.
  revert l. induction vs as [|v vs IH]; intros l; simpl.
  - by rewrite app_nil_r.
  - unfold q_push. rewrite IH. by rewrite <-(assoc_L (++)).
Qed.

Lemma run_pops {T} (pop : call T) (l : list T) :
  pop = call_wait_pop ∨ pop = call_get →
  run (replicate (length l) pop) (Queue l false)
    = Some ((λ v, ret_opt (Some v)) <$> l, Queue [] false).
Proof.
  intros Hpop. induction l as [|x l IH]; [done|].
  cbn [length replicate run]. destruct Hpop as [-> | ->]; simpl.
  - unfold wait_pop, wait_pop_woken, cond_wait; simpl. by rewrite IH.
  - by rewrite IH.
Qed.

(** X5: a caller that pushes the values [vs] on a running queue holding
    [l] and then pops, with either pop, as many times as there are items,
    has every push accepted and receives [l] and then [vs], each value
    once and in the order pushed, and leaves the queue running and
    empty. *)
Theorem push_then_pop_round_trip {T} (pop : call T) (l vs : list T) :
  pop = call_wait_pop ∨ pop = call_get →
  run ((call_push <$> vs) ++ replicate (length (l ++ vs)) pop) (Queue l false)
    = Some (replicate (length vs) (ret_bool true)
              ++ ((λ v, ret_opt (Some v)) <$> l ++ vs),
            Queue [] false).
Proof.
  intros Hpop. eapply run_app; [apply run_pushes|by apply run_pops].
Qed.

Lemma push_then_pop_round_trip_witness :
  run [call_push 2; call_push 3; call_wait_pop; call_wait_pop; call_wait_pop]
      (Queue [1] false)
  = Some ([ret_bool true; ret_bool true;
           ret_opt (Some 1); ret_opt (Some 2); ret_opt (Some 3)],
          Queue [] false).
Proof.
  apply (push_then_pop_round_trip call_wait_pop [1] [2; 3]). by left.
Defined.

(** ** Executions on a stopped queue *)

Lemma stopped_sections {T} (c : call T) (q : queue T) t :
  m_joined q = true →
  match invoke c q with
  | Return r _ n => after_stop_ok (ev_return t c r n)
  | Sleep _ => after_stop_ok (ev_sleep t c)
  | Undefined => True
  end ∧
  match resume c q with
  | Return r _ n => after_stop_ok (ev_return t c r n)
  | Sleep _ => after_stop_ok (ev_sleep t c)
  | Undefined => True
  end.
Proof.
  intros Hj. destruct q as [l b]; simpl in Hj; subst b.
  destruct c, l; cbv; split_and!; try done; intros; by simplify_eq.
Qed.

Lemma step_after_stop {T} (s s' : system T) e :
  step s e s' → m_joined (shared s) = true → after_stop_ok e.
Proof.
  inversion 1 as [t c q sl r q' n Hsl Hc|t c q sl q' Hsl Hc
                 |t c q sl r q' n Hsl Hc|t c q sl q' Hsl Hc];
    subst; simpl; intros Hj;
    destruct (stopped_sections c q t Hj) as [Hi Hr];
    rewrite Hc in *; done.
Qed.

Lemma exec_after_stop {T} (s s' : system T) tr :
  exec s tr s' → m_joined (shared s) = true → Forall after_stop_ok tr.
Proof.
  induction 1 as [s|s e s' tr s'' Hstep _ IH]; intros Hj; [done|].
  constructor; [by eapply step_after_stop|].
  apply IH. by eapply step_stopped.
Qed.

Lemma after_stop_no_push {T} (tr : list (event T)) :
  Forall after_stop_ok tr → pushes tr = [].
Proof.
  induction 1 as [|e tr He _ IH]; [done|].
  unfold pushes in *. cbn [mbind list_bind]. rewrite IH, app_nil_r.
  destruct e as [t c r n|t c]; [|done].
  destruct c; try done. destruct He as (_ & Hp & _).
  by rewrite (Hp _ eq_refl).
Qed.

(** X6: once the queue is stopped, whatever the threads do, nothing is
    pushed any more, [wait_pop] hands out nothing, and the values handed
    out, all by [get], followed by what is left in the buffer, are the
    buffer as it was: the stopped buffer is drained from the front, in
    order, and only by [get]. *)
Theorem stopped_buffer_is_drained_by_get {T} (s s' : system T) tr :
  exec s tr s' →
  m_joined (shared s) = true →
  pushes tr = [] ∧
  m_queue (shared s) = (deliveries tr).*2 ++ m_queue (shared s') ∧
  (∀ t r n, ev_return t call_wait_pop r n ∈ tr → r = ret_opt None) ∧
  (∀ t c v n, ev_return t c (ret_opt (Some v)) n ∈ tr → c = call_get).
Proof.
  intros Hex Hj. pose proof (exec_after_stop _ _ _ Hex Hj) as Hok.
  pose proof (exec_conserves _ _ _ Hex) as Heq.
  pose proof (after_stop_no_push _ Hok) as Hnone.
  rewrite Hnone, app_nil_r in Heq.
  rewrite Forall_forall in Hok. split_and!; [done..| |].
  - intros t r n Hin. by apply (Hok _ Hin).
  - intros t c v n Hin. by eapply (Hok _ Hin).
Qed.

Lemma stopped_buffer_is_drained_by_get_witness :
  exec (System (Queue [1; 2] true) ∅)
    [ev_return 0 call_wait_pop (ret_opt None) no_signal; ev_got 1 1]
    (System (Queue [2] true) ∅) ∧
  pushes [ev_return 0 call_wait_pop (ret_opt None) no_signal; ev_got 1 1]
    = [] ∧
  [1; 2]
    = (deliveries
         [ev_return 0 call_wait_pop (ret_opt None) no_signal; ev_got 1 1]).*2
        ++ [2].
Proof.
  assert (exec (System (Queue [1; 2] true) ∅)
            [ev_return 0 call_wait_pop (ret_opt None) no_signal; ev_got 1 1]
            (System (Queue [2] true) ∅)) as Hex.
  { eapply exec_cons; [by apply step_call_return|].
    eapply exec_cons; [by apply step_call_return|apply exec_nil]. }
  destruct (stopped_buffer_is_drained_by_get _ _ _ Hex eq_refl)
    as (Hp & Hd & _).
  by split_and!.
Defined.



(** ** The end of the stream *)

Lemma exec_complete_pops {T} (s s' : system T) tr :
  exec s tr s' →
  shared s = Queue [] true →
  ∀ t c o n, ev_return t c (ret_opt o) n ∈ tr → o = None.
Proof.
  induction 1 as [s|s e s' tr s'' Hstep _ IH]; intros Hs t c o n Hin.
  - by apply elem_of_nil in Hin.
  - destruct s as [q sl]; simpl in Hs; subst q.
    apply elem_of_cons in Hin as [<-|Hin].
    + inversion Hstep as [? ? ? ? ? ? ? _ Hc| |? ? ? ? ? ? ? _ Hc|]; subst;
        destruct c; cbv in Hc; by simplify_eq.
    + apply step_complete in Hstep as [Hs' _]. by eapply IH.
Qed.

(** X8: once a [get] has returned empty, the queue is stopped and empty
    for good: in whatever the threads do afterwards every pop, of either
    kind, returns empty and every [push] is refused. *)
Theorem empty_get_is_final {T} (s s' s'' : system T) t n tr :
  step s (ev_return t call_get (ret_opt None) n) s' →
  exec s' tr s'' →
  shared s'' = Queue [] true ∧
  (∀ t' c o n', ev_return t' c (ret_opt o) n' ∈ tr → o = None) ∧
  (∀ t' v r n', ev_return t' (call_push v) r n' ∈ tr → r = ret_bool false).
Proof.
  intros Hstep Hex.
  assert (shared s' = Queue [] true) as Hs'.
  { inversion Hstep as [? ? q ? ? ? ? _ Hc| |? ? q ? ? ? ? _ Hc|]; subst;
      simpl in *; queue_cases q; cbv in Hc; by simplify_eq. }
  split_and!.
  - by apply (exec_complete _ _ _ Hex).
  - by apply (exec_complete_pops _ _ _ Hex).
  - apply (exec_stopped _ _ _ Hex). by rewrite Hs'.
Qed.

Lemma empty_get_is_final_witness :
  step (System (Queue (@nil nat) true) ∅)
    (ev_return 0 call_get (ret_opt None) no_signal)
    (System (Queue [] true) ∅) ∧
  exec (System (Queue (@nil nat) true) ∅)
    [ev_return 1 (call_push 9) (ret_bool false) no_signal]
    (System (Queue [] true) ∅) ∧
  ∀ t' v r n',
    ev_return t' (call_push v) r n'
      ∈ [ev_return 1 (call_push 9) (ret_bool false) no_signal] →
    r = ret_bool false.
Proof.
  assert (step (System (Queue (@nil nat) true) ∅)
            (ev_return 0 call_get (ret_opt None) no_signal)
            (System (Queue [] true) ∅)) as Hstep
    by by apply step_call_return.
  assert (exec (System (Queue (@nil nat) true) ∅)
            [ev_return 1 (call_push 9) (ret_bool false) no_signal]
            (System (Queue [] true) ∅)) as Hex.
  { eapply exec_cons; [by apply step_call_return|apply exec_nil]. }
  split_and!; [exact Hstep|exact Hex|].
  exact (proj2 (proj2 (empty_get_is_final _ _ _ _ _ _ Hstep Hex))).
Defined.

(** ** Threads inside join *)

Lemma invoke_sleep_waits {T} (c : call T) (q q' : queue T) :
  invoke c q = Sleep q' →
  may_wait c = true ∧ (c = call_join → m_joined q' = true).
Proof.
  queue_cases q; destruct c; cbv; intros ?; by simplify_eq.
Qed.

Lemma step_sleepers {T} (s s' : system T) e :
  step s e s' → sleepers_ok s → sleepers_ok s'.
Proof.
  inversion 1 as [t c q sl r q' n Hsl Hc|t c q sl q' Hsl Hc
                 |t c q sl r q' n Hsl Hc|t c q sl q' Hsl Hc];
    subst; intros Hok t' c' Hl; simpl in *.
  - destruct (Hok _ _ Hl) as [Hw Hj]. split; [done|]. intros Hc'.
    pose proof (stopped_invoke c q (Hj Hc')) as Hi. rewrite Hc in Hi.
    by destruct Hi.
  - destruct (decide (t = t')) as [<-|Hne].
    + rewrite lookup_insert_eq in Hl. simplify_eq.
      by apply invoke_sleep_waits in Hc.
    + rewrite lookup_insert_ne in Hl by done.
      destruct (Hok _ _ Hl) as [Hw Hj]. split; [done|]. intros Hc'.
      pose proof (stopped_invoke c q (Hj Hc')) as Hi. by rewrite Hc in Hi.
  - apply lookup_delete_Some in Hl as [_ Hl].
    destruct (Hok _ _ Hl) as [Hw Hj]. split; [done|]. intros Hc'.
    pose proof (stopped_resume c q (Hj Hc')) as Hi. rewrite Hc in Hi.
    by destruct Hi.
  - destruct (Hok _ _ Hl) as [Hw Hj]. split; [done|]. intros Hc'.
    pose proof (stopped_resume c q (Hj Hc')) as Hi. by rewrite Hc in Hi.
Qed.

(** X9: in any execution that starts with no thread asleep in a function
    that does not wait, and none asleep in [join()] on a running queue,
    this stays so; in particular, as long as a thread is inside [join()]
    the queue is stopped and every [push] is refused. *)
Theorem push_refused_while_join_waits {T} (s s' : system T) tr :
  exec s tr s' →
  sleepers_ok s →
  sleepers_ok s' ∧
  ∀ t, sleeping s' !! t = Some call_join →
    m_joined (shared s') = true ∧
    ∀ v, push v (shared s') = Return false (shared s') no_signal.
Proof.
  intros Hex Hok.
  assert (sleepers_ok s') as Hok'.
  { induction Hex as [s|s e s' tr s'' Hstep _ IH]; [done|].
    apply IH. by eapply step_sleepers. }
  split; [done|]. intros t Hl.
  destruct (Hok' _ _ Hl) as [_ Hj]. specialize (Hj eq_refl).
  split; [done|]. intros v. unfold push. by rewrite Hj.
Qed.

Lemma push_refused_while_join_waits_witness :
  exec (System (Queue [1] false) ∅) [ev_sleep 0 call_join]
    (System (Queue [1] true) {[ 0 := call_join ]}) ∧
  push 2 (Queue [1] true) = Return false (Queue [1] true) no_signal.
Proof.
  assert (exec (System (Queue [1] false) ∅) [ev_sleep 0 call_join]
            (System (Queue [1] true) {[ 0 := call_join ]})) as Hex.
  { eapply exec_cons; [|apply exec_nil].
    by apply (step_call_sleep 0 call_join (Queue [1] false) ∅). }
  split; [exact Hex|].
  assert (sleepers_ok (System (Queue [1] false) ∅)) as Hok.
  { intros t c Hl. simpl in Hl. by rewrite lookup_empty in Hl. }
  destruct (push_refused_while_join_waits _ _ _ Hex Hok) as [_ Hpush].
  apply (Hpush 0). simpl. apply lookup_singleton_eq.
Defined.

(** ** join and the consumers *)

Lemma exec_app {T} (s s1 s2 : system T) tr1 tr2 :
  exec s tr1 s1 → exec s1 tr2 s2 → exec s (tr1 ++ tr2) s2.
Proof.
  induction 1 as [s|s e s' tr s'' Hstep _ IH]; intros H2; [done|].
  simpl. eapply exec_cons; [done|]. by apply IH.
Qed.

Lemma exec_gets {T} (l : list T) (sl : gmap nat (call T)) (c : nat) :
  sl !! c = None →
  exec (System (Queue l true) sl) (ev_got c <$> l) (System (Queue [] true) sl).
Proof.
  intros Hc. induction l as [|x l IH]; [apply exec_nil|].
  simpl. eapply exec_cons; [|exact IH].
  by apply step_call_return.
Qed.

(** X10: a [join()] on a non-empty buffer goes to sleep; a consumer that
    then takes the items with [get], one by one, empties the buffer, the
    last [get] notifies all waiters, and the woken [join()] returns on the
    stopped, empty queue with no thread left asleep. *)
Theorem join_returns_once_drained {T} (j c : nat) (x : T) (l : list T) b :
  j ≠ c →
  exec (System (Queue (x :: l) b) ∅)
    (ev_sleep j call_join
       :: (ev_got c <$> x :: l)
       ++ [ev_return j call_join ret_void no_signal])
    (System (Queue [] true) ∅).
Proof.
  intros Hjc.
  eapply exec_cons; [by apply step_call_sleep|].
  eapply exec_app.
  - apply exec_gets. by rewrite lookup_insert_ne.
  - eapply exec_cons; [|apply exec_nil].
    replace (∅ : gmap nat (call T))
      with (delete j (<[j := call_join]> (∅ : gmap nat (call T)))) at 2
      by (by rewrite delete_insert_eq, delete_empty).
    apply step_wake_return; [by rewrite lookup_insert_eq|done].
Qed.

Lemma join_returns_once_drained_witness :
  exec (System (Queue [5; 6] false) ∅)
    [ev_sleep 0 call_join; ev_got 1 5; ev_got 1 6;
     ev_return 0 call_join ret_void no_signal]
    (System (Queue [] true) ∅).
Proof.
  apply (join_returns_once_drained 0 1 5 [6] false). lia.
Defined.

Lemma stopped_sections_keep_buffer {T} (c : call T) (q : queue T) :
  m_joined q = true →
  c ≠ call_get →
  match invoke c q with
  | Return _ q' _ => m_queue q' = m_queue q ∧ (c = call_join → m_queue q = [])
  | Sleep q' => m_queue q' = m_queue q
  | Undefined => True
  end ∧
  match resume c q with
  | Return _ q' _ => m_queue q' = m_queue q ∧ (c = call_join → m_queue q = [])
  | Sleep q' => m_queue q' = m_queue q
  | Undefined => True
  end.
Proof.
  intros Hj Hc. destruct q as [l b]; simpl in Hj; subst b.
  destruct c, l; cbv; split_and!; done.
Qed.

Lemma step_without_get {T} (s s' : system T) e :
  step s e s' →
  m_joined (shared s) = true →
  (∀ t r n, e ≠ ev_return t call_get r n) →
  m_queue (shared s') = m_queue (shared s) ∧
  ∀ t r n, e = ev_return t call_join r n → m_queue (shared s) = [].
Proof.
  inversion 1 as [t c q sl r q' n Hsl Hc|t c q sl q' Hsl Hc
                 |t c q sl r q' n Hsl Hc|t c q sl q' Hsl Hc];
    subst; simpl; intros Hj Hne.
  - assert (c ≠ call_get) as Hcg by (intros ->; by eapply Hne).
    destruct (stopped_sections_keep_buffer c q Hj Hcg) as [Hi _].
    rewrite Hc in Hi. destruct Hi as [Hq Hjoin]. split; [done|].
    intros ??? ?; simplify_eq. by apply Hjoin.
  - destruct (stopped_sections c q t Hj) as [Hs _].
    rewrite Hc in Hs. simpl in Hs. subst c.
    destruct (stopped_sections_keep_buffer call_join q Hj) as [Hi _];
      [done|].
    by rewrite Hc in Hi.
  - assert (c ≠ call_get) as Hcg by (intros ->; by eapply Hne).
    destruct (stopped_sections_keep_buffer c q Hj Hcg) as [_ Hr].
    rewrite Hc in Hr. destruct Hr as [Hq Hjoin]. split; [done|].
    intros ??? ?; simplify_eq. by apply Hjoin.
  - destruct (stopped_sections c q t Hj) as [_ Hs].
    rewrite Hc in Hs. simpl in Hs. subst c.
    destruct (stopped_sections_keep_buffer call_join q Hj) as [_ Hr];
      [done|].
    by rewrite Hc in Hr.
Qed.

(** X11: on a stopped queue, as long as no [get] returns, the buffer stays
    as it is whatever else the threads call; so when it is not empty no
    [join()] returns: consumers that only use [wait_pop] leave a waiting
    [join()] asleep. *)
Theorem join_starves_without_get {T} (s s' : system T) tr :
  exec s tr s' →
  m_joined (shared s) = true →
  (∀ t r n, ev_return t call_get r n ∉ tr) →
  m_queue (shared s') = m_queue (shared s) ∧
  (m_queue (shared s) ≠ [] → ∀ t r n, ev_return t call_join r n ∉ tr).
Proof.
  induction 1 as [s|s e s' tr s'' Hstep _ IH]; intros Hj Hget.
  - split; [done|]. intros _ t r n Hin. by apply elem_of_nil in Hin.
  - destruct (step_without_get _ _ _ Hstep Hj) as [Hq Hjoin].
    { intros t r n ->. apply (Hget t r n). by left. }
    destruct IH as [Hq' Hnone].
    { by eapply step_stopped. }
    { intros t r n Hin. apply (Hget t r n). by right. }
    split; [congruence|].
    intros Hne t r n [Heq|Hin]%elem_of_cons.
    + by apply Hne, (Hjoin t r n).
    + rewrite <-Hq in Hne. by apply (Hnone Hne t r n).
Qed.

Lemma join_starves_without_get_witness :
  exec (System (Queue [1] true) {[ 0 := call_join ]})
    [ev_return 1 call_wait_pop (ret_opt None) no_signal;
     ev_sleep 0 call_join]
    (System (Queue [1] true) {[ 0 := call_join ]}) ∧
  ∀ t r n,
    ev_return t call_join r n
      ∉ [ev_return 1 call_wait_pop (ret_opt None) no_signal;
         ev_sleep 0 (@call_join nat)].
Proof.
  assert (exec (System (Queue [1] true) {[ 0 := call_join ]})
            [ev_return 1 call_wait_pop (ret_opt None) no_signal;
             ev_sleep 0 call_join]
            (System (Queue [1] true) {[ 0 := call_join ]})) as Hex.
  { eapply exec_cons; [by apply step_call_return|].
    eapply exec_cons; [by apply step_wake_sleep|apply exec_nil]. }
  split; [exact Hex|].
  apply (join_starves_without_get _ _ _ Hex eq_refl); [|done].
  intros t r n Hin. repeat (apply elem_of_cons in Hin as [?|Hin]; [done|]).
  by apply elem_of_nil in Hin.
Defined.

(** ** Waking up *)

Lemma resume_sleep_same {T} (c : call T) (q q' : queue T) :
  resume c q = Sleep q' → q' = q.
Proof. queue_cases q; destruct c; cbv; intros ?; by simplify_eq. Qed.

(** X12: a thread that wakes up inside the wait and finds its predicate
    false goes back to sleep and has changed nothing: the buffer, the flag
    and the sleeping threads are as they were. *)
Theorem spurious_wakeup_changes_nothing {T} (q : queue T) sl t c s' :
  sl !! t = Some c →
  step (System q sl) (ev_sleep t c) s' →
  s' = System q sl.
Proof.
  intros Hl. inversion 1 as [|? ? ? ? ? Hsl Hc| |? ? ? ? ? Hsl Hc]; subst.
  - congruence.
  - by apply resume_sleep_same in Hc as ->.
Qed.

Lemma spurious_wakeup_changes_nothing_witness :
  step (System (Queue (@nil nat) false) {[ 0 := call_get ]})
    (ev_sleep 0 call_get)
    (System (Queue [] false) {[ 0 := call_get ]}) ∧
  System (Queue (@nil nat) false) {[ 0 := call_get ]}
    = System (Queue [] false) {[ 0 := call_get ]}.
Proof.
  assert (step (System (Queue (@nil nat) false) {[ 0 := call_get ]})
            (ev_sleep 0 call_get)
            (System (Queue [] false) {[ 0 := call_get ]})) as Hstep
    by by apply step_wake_sleep.
  split; [exact Hstep|].
  apply (spurious_wakeup_changes_nothing _ _ 0 call_get); [|exact Hstep].
  apply lookup_singleton_eq.
Defined.

(** X13: a consumer asleep in either pop on the running, empty queue is
    served by the next [push]: the push is accepted and notifies one
    waiter, the woken pop returns the pushed value, and the queue is
    running and empty again with no thread asleep. *)
Theorem push_serves_sleeping_pop {T} (p c : nat) (pop : call T) (v : T) :
  p ≠ c →
  pop = call_wait_pop ∨ pop = call_get →
  ∃ n,
    exec (System (Queue [] false) ∅)
      [ev_sleep c pop;
       ev_return p (call_push v) (ret_bool true) notify_one;
       ev_return c pop (ret_opt (Some v)) n]
      (System (Queue [] false) ∅).
Proof.
  intros Hpc Hpop.
  exists (match pop with call_get => notify_all | _ => no_signal end).
  eapply exec_cons; [apply step_call_sleep; [done|by destruct Hpop as [-> | ->]]|].
  eapply exec_cons;
    [apply step_call_return; [by rewrite lookup_insert_ne|done]|].
  eapply exec_cons; [|apply exec_nil].
  replace (∅ : gmap nat (call T))
    with (delete c (<[c := pop]> (∅ : gmap nat (call T)))) at 2
    by (by rewrite delete_insert_eq, delete_empty).
  apply step_wake_return; [by rewrite lookup_insert_eq|].
  by destruct Hpop as [-> | ->].
Qed.

Lemma push_serves_sleeping_pop_witness :
  ∃ n,
    exec (System (Queue [] false) ∅)
      [ev_sleep 1 call_wait_pop;
       ev_return 0 (call_push 4) (ret_bool true) notify_one;
       ev_return 1 call_wait_pop (ret_opt (Some 4)) n]
      (System (Queue [] false) ∅).
Proof.
  apply (push_serves_sleeping_pop 0 1 call_wait_pop 4); [lia|by left].
Defined.

End TSQ.
